(** * Topic monitor: generation lists and per-topic counters

    A shallow embedding of [src/topic_monitor.h] of the fish shell.

    - [generation_t] is [uint64_t]; it is modelled as [N], and the one place
      where arithmetic can leave the 64-bit range (the increment of a counter)
      has its wrap-around written out ([wrap64]).
    - [topic_t] is an [enum class] over [uint8_t].  An object of that type is a
      byte, and only three byte values are enumerators; the member functions
      therefore take the byte ([N]) and the enumerators are a separate
      inductive type with the cast [topic_t.underlying].
    - [DIE("Unreachable")] aborts the process: functions that can reach it
      return an [outcome].
    - A non-const [at] returns a reference to one field of the list: it is
      modelled as a field selector ([field_ref]) with [load] and [store].
    - [set_min_from] receives two references that may designate the same
      object; it is run against a heap of generation lists. *)

From Stdlib Require Import NArith Lia List.
From stdpp Require Import base option list strings gmap relations.

Local Open Scope N_scope.

(** ** Outcomes *)

(** The result of running a function that may hit [DIE] (the process is
    terminated with a message) or may be handed a reference that designates no
    object (undefined behaviour in C++; no claim is made about it). *)
Inductive outcome (A : Type) : Type :=
| Returns (a : A)
| Dies (msg : string)
| Undefined.

Arguments Returns {A} a.
Arguments Dies {A} msg.
Arguments Undefined {A}.

Definition outcome_bind {A B : Type} (f : A → outcome B) (x : outcome A) : outcome B :=
  match x with
  | Returns a => f a
  | Dies msg => Dies msg
  | Undefined => Undefined
  end.

#[global] Instance outcome_mbind : MBind outcome := @outcome_bind.
#[global] Instance outcome_mret : MRet outcome := @Returns.

(** ** Generations *)

(** [using generation_t = uint64_t]: the values are [0 .. 2^64 - 1]. *)
Definition generation_t : Set := N.

Definition uint_max (width : N) : N := N.ones width.

(** The stored result of an unsigned 64-bit operation. *)
Definition wrap64 (v : N) : generation_t := v mod 2 ^ 64.

(** [constexpr generation_t invalid_generation =
      std::numeric_limits<generation_t>::max();] *)
Definition invalid_generation : generation_t := uint_max 64.

(** ** Topics *)

Module topic_t.

(** The enumerators of [enum class topic_t : uint8_t]. *)
Inductive t : Set :=
| sighupint
| sigchld
| internal_exit.

(** [static_cast<uint8_t>(topic)]: enumerators without initialisers count
    from zero in declaration order. *)
Definition underlying (topic : t) : N :=
  match topic with
  | sighupint => 0
  | sigchld => 1
  | internal_exit => 2
  end.

#[global] Instance eq_dec : EqDecision t.
Proof. solve_decision. Defined.

End topic_t.

(** [inline std::array<topic_t, 3> all_topics()] *)
Definition all_topics : list topic_t.t :=
  [topic_t.sighupint; topic_t.sigchld; topic_t.internal_exit].

(** ** Generation lists *)

Module generation_list_t.

(** The three data members, in declaration order. *)
Record t : Set := mk {
  sighupint : generation_t;
  sigchld : generation_t;
  internal_exit : generation_t;
}.

(** [generation_list_t() = default;] with the member initialisers [{0}]. *)
Definition default : t := mk 0 0 0.

(** A [generation_t &] into a generation list: which member it designates. *)
Inductive field_ref : Set :=
| ref_sighupint
| ref_sigchld
| ref_internal_exit.

(** Reading through the reference. *)
Definition load (g : t) (r : field_ref) : generation_t :=
  match r with
  | ref_sighupint => sighupint g
  | ref_sigchld => sigchld g
  | ref_internal_exit => internal_exit g
  end.

(** Assigning through the reference. *)
Definition store (g : t) (r : field_ref) (v : generation_t) : t :=
  match r with
  | ref_sighupint => mk v (sigchld g) (internal_exit g)
  | ref_sigchld => mk (sighupint g) v (internal_exit g)
  | ref_internal_exit => mk (sighupint g) (sigchld g) v
  end.

(** [generation_t &at(topic_t topic)].  The switch lists [sigchld] first;
    [topic] is the byte held by the [topic_t] object. *)
Definition at_ (topic : N) : outcome field_ref :=
  if topic =? topic_t.underlying topic_t.sigchld then Returns ref_sigchld
  else if topic =? topic_t.underlying topic_t.sighupint then Returns ref_sighupint
  else if topic =? topic_t.underlying topic_t.internal_exit then Returns ref_internal_exit
  else Dies "Unreachable".

(** [generation_t at(topic_t topic) const].  The switch lists [sighupint]
    first. *)
Definition at_const (g : t) (topic : N) : outcome generation_t :=
  if topic =? topic_t.underlying topic_t.sighupint then Returns (sighupint g)
  else if topic =? topic_t.underlying topic_t.sigchld then Returns (sigchld g)
  else if topic =? topic_t.underlying topic_t.internal_exit then Returns (internal_exit g)
  else Dies "Unreachable".

(** [std::array<generation_t, 3> as_array() const] *)
Definition as_array (g : t) : list generation_t :=
  [sighupint g; sigchld g; internal_exit g].

(** [bool is_valid(topic_t topic) const] *)
Definition is_valid (g : t) (topic : N) : outcome bool :=
  v ← at_const g topic;
  mret (negb (v =? invalid_generation)).

(** [bool any_valid() const]: the loop over [as_array()], carrying the local
    [valid]. *)
Definition any_valid (g : t) : bool :=
  fold_left
    (fun (valid : bool) (gen : generation_t) =>
       if negb (gen =? invalid_generation) then true else valid)
    (as_array g) false.

(** [bool operator==(const generation_list_t &rhs) const] *)
Definition eqb (lhs rhs : t) : bool :=
  (sighupint lhs =? sighupint rhs)
  && (sigchld lhs =? sigchld rhs)
  && (internal_exit lhs =? internal_exit rhs).

(** [bool operator!=(const generation_list_t &rhs) const]: the negation of
    [operator==] on the same two lists. *)
Definition neqb (lhs rhs : t) : bool := negb (eqb lhs rhs).

(** [static generation_list_t invalids()] *)
Definition invalids : t :=
  mk invalid_generation invalid_generation invalid_generation.

(** References to generation lists are addresses of objects in a heap. *)
Definition loc : Set := positive.

(** Following a reference: it has to designate an object. *)
Definition deref (h : gmap loc t) (l : loc) : outcome t :=
  match h !! l with
  | Some g => Returns g
  | None => Undefined
  end.

(** [void set_min_from(topic_t topic, const generation_list_t &other)],
    called on the object at [this].  Each line is one evaluation of the
    source: the two operands of the comparison, then, inside the [if], the
    right and the left side of the assignment.  [this->at] is the non-const
    overload, [other.at] the const one; [this] and [other] may be equal. *)
Definition set_min_from (this : loc) (topic : N) (other : loc)
    (h : gmap loc t) : outcome (gmap loc t) :=
  g ← deref h this;
  r ← at_ topic;
  o ← deref h other;
  v ← at_const o topic;
  if v <? load g r then
    o' ← deref h other;
    v' ← at_const o' topic;
    g' ← deref h this;
    r' ← at_ topic;
    mret (<[this := store g' r' v']> h)
  else mret h.

End generation_list_t.

(** ** The topic monitor *)

Module topic_monitor_t.

(** [using topic_bitmask_t = uint8_t;] *)
Definition topic_bitmask_t : Set := N.

(** Conversion to [uint8_t]. *)
Definition wrap8 (v : N) : topic_bitmask_t := v mod 2 ^ 8.

(** [struct data_t]: what the lock protects. *)
Record data_t : Set := mk_data {
  current : generation_list_t.t;
  has_reader : bool;
}.

(** The members that carry state: [data_] and [pending_updates_], with their
    default member initialisers in [fresh]. *)
Record t : Set := mk {
  data_ : data_t;
  pending_updates_ : topic_bitmask_t;
}.

Definition fresh : t := mk (mk_data generation_list_t.default false) 0.

(** [static topic_bitmask_t topic_to_bit(topic_t t)
      { return 1 << static_cast<topic_bitmask_t>(t); }]
    The shift is done on [int] and the result converted to [uint8_t]. *)
Definition topic_to_bit (topic : N) : topic_bitmask_t :=
  wrap8 (N.shiftl 1 (wrap8 topic)).

(** Modelled from the spec: [post] is declared in the header and defined
    elsewhere.  Section 4.2: it atomically sets the bit of the kind in the
    pending-update bitmask; the byte written to the wakeup channel carries
    no state. *)
Definition post (m : t) (topic : N) : t :=
  mk (data_ m) (N.lor (pending_updates_ m) (topic_to_bit topic)).

(** Modelled from the spec: the body of the loop of [updated_gens_in_data],
    which is defined outside the header.  Section 4.3: the counter of [topic]
    goes up by exactly one when its bit is among [bits].  The counter is a
    [generation_t], so the sum is stored modulo [2^64]. *)
Definition apply_pending (bits : topic_bitmask_t)
    (acc : outcome generation_list_t.t) (topic : topic_t.t)
    : outcome generation_list_t.t :=
  g ← acc;
  if N.land bits (topic_to_bit (topic_t.underlying topic)) =? 0 then mret g
  else
    r ← generation_list_t.at_ (topic_t.underlying topic);
    mret (generation_list_t.store g r (wrap64 (generation_list_t.load g r + 1))).

(** Modelled from the spec: [updated_gens_in_data] is declared in the
    header and defined elsewhere.  Section 4.3: it exchanges the pending
    bitmask with zero, increments the authoritative counter of every kind
    whose bit was set, and returns a copy of the authoritative list. *)
Definition updated_gens_in_data (m : t) : outcome (generation_list_t.t * t) :=
  let changed_topic_bits := pending_updates_ m in
  cur ← fold_left (apply_pending changed_topic_bits) all_topics
        (Returns (current (data_ m)));
  mret (cur, mk (mk_data cur (has_reader (data_ m))) 0).

(** Modelled from the spec: [updated_gens] is declared in the header and
    defined elsewhere.  Section 4.4: it takes the lock, applies the pending
    updates, releases the lock and returns the copy. *)
Definition updated_gens (m : t) : outcome (generation_list_t.t * t) :=
  updated_gens_in_data m.

(** [generation_list_t current_generations() { return updated_gens(); }] *)
Definition current_generations (m : t) : outcome (generation_list_t.t * t) :=
  updated_gens m.

(** [generation_t generation_for_topic(topic_t topic)] *)
Definition generation_for_topic (m : t) (topic : N) : outcome (generation_t * t) :=
  '(gens, m') ← current_generations m;
  v ← generation_list_t.at_const gens topic;
  mret (v, m').

(** What can happen to a monitor between two queries of one thread: a post
    (from a signal handler or a thread), a drain of the pending bits by
    any thread that holds the lock (every query, reader election and reader
    duty funnels through section 4.3), and a change of the reader flag under
    the lock.  A post is one atomic read-modify-write and the drains are
    serialised by the lock, so executions are sequences of these actions; a
    post that lands inside a drain, after the exchange, touches only the
    bitmask and acts as a post that follows the drain. *)
Inductive action : Set :=
| Post (topic : topic_t.t)
| Drain
| SetReader (b : bool).

Definition run_action (a : action) (m : t) : outcome t :=
  match a with
  | Post topic => mret (post m (topic_t.underlying topic))
  | Drain => '(_, m') ← updated_gens_in_data m; mret m'
  | SetReader b => mret (mk (mk_data (current (data_ m)) b) (pending_updates_ m))
  end.

Fixpoint run (acts : list action) (m : t) : outcome t :=
  match acts with
  | [] => mret m
  | a :: rest => m' ← run_action a m; run rest m'
  end.

End topic_monitor_t.

(** * Properties *)

(** ** Small executions *)

Example at_const_sample :
  generation_list_t.at_const (generation_list_t.mk 5 6 7)
    (topic_t.underlying topic_t.sigchld) = Returns 6.
Proof. reflexivity. Qed.

Example at_const_out_of_range :
  generation_list_t.at_const (generation_list_t.mk 5 6 7) 3 = Dies "Unreachable".
Proof. reflexivity. Qed.

Example set_min_from_sample :
  generation_list_t.set_min_from 1%positive 1 2%positive
    (<[1%positive := generation_list_t.mk 5 6 7]>
       (<[2%positive := generation_list_t.mk 1 2 3]> ∅))
  = Returns (<[1%positive := generation_list_t.mk 5 2 7]>
       (<[1%positive := generation_list_t.mk 5 6 7]>
          (<[2%positive := generation_list_t.mk 1 2 3]> ∅))).
Proof. reflexivity. Qed.

Example post_post_query :
  (m ← topic_monitor_t.run
         [topic_monitor_t.Post topic_t.sigchld; topic_monitor_t.Post topic_t.sigchld]
         topic_monitor_t.fresh;
   topic_monitor_t.generation_for_topic m 1)
  = Returns (1, topic_monitor_t.mk
                  (topic_monitor_t.mk_data (generation_list_t.mk 0 1 0) false) 0).
Proof. reflexivity. Qed.

(** ** Auxiliary facts *)

Import generation_list_t.

(** [operator==] decides equality of generation lists. *)
Lemma eqb_eq (lhs rhs : generation_list_t.t) :
  generation_list_t.eqb lhs rhs = true ↔ lhs = rhs.
Proof.
  unfold generation_list_t.eqb. rewrite !andb_true_iff, !N.eqb_eq.
  destruct lhs, rhs; cbn. split.
  - intros [[-> ->] ->]. reflexivity.
  - intros [= -> -> ->]. repeat split.
Qed.

Ltac by_topic k := destruct k; cbn; try reflexivity.

Lemma load_store_same (g : generation_list_t.t) (r : field_ref) (v : generation_t) :
  load (store g r v) r = v.
Proof. destruct r; reflexivity. Qed.

Lemma load_store_other (g : generation_list_t.t) (r r' : field_ref) (v : generation_t) :
  r ≠ r' → load (store g r v) r' = load g r'.
Proof. destruct r, r'; intros Hne; try reflexivity; contradiction. Qed.

(** On every byte, enumerator or not, reading through the reference that the
    non-const overload returns is what the const overload returns. *)
Lemma at_overloads_agree_raw (g : generation_list_t.t) (topic : N) :
  (r ← at_ topic; mret (load g r)) = at_const g topic.
Proof.
  unfold at_, at_const; cbn.
  destruct (N.eqb_spec topic 1) as [-> | H1]; [reflexivity |].
  destruct (N.eqb_spec topic 0) as [-> | H0]; [reflexivity |].
  destruct (N.eqb_spec topic 2) as [-> | H2]; reflexivity.
Qed.

(** On an enumerator the non-const overload returns a reference and the const
    overload the content of that reference. *)
Lemma at_enumerator (g : generation_list_t.t) (k : topic_t.t) :
  ∃ r : field_ref,
    at_ (topic_t.underlying k) = Returns r
    ∧ at_const g (topic_t.underlying k) = Returns (load g r).
Proof. destruct k; eexists; split; reflexivity. Qed.

(** The bytes that are not enumerators. *)
Lemma not_enumerator_iff (topic : N) :
  (∀ k : topic_t.t, topic ≠ topic_t.underlying k) ↔ (topic ≠ 0 ∧ topic ≠ 1 ∧ topic ≠ 2).
Proof.
  split.
  - intros H. repeat split.
    + apply (H topic_t.sighupint).
    + apply (H topic_t.sigchld).
    + apply (H topic_t.internal_exit).
  - intros (H0 & H1 & H2) k. destruct k; assumption.
Qed.

Lemma underlying_inj (j k : topic_t.t) :
  topic_t.underlying j = topic_t.underlying k → j = k.
Proof. destruct j, k; cbn; intros H; first [reflexivity | discriminate H]. Qed.

(** ** Reading a generation list *)

(** C3.  On each of the three enumerators both overloads of [at] return: the
    non-const one the reference to the field of that name, the const one the
    value of that field.  The [DIE] branch is taken exactly on the bytes that
    are not enumerators, and neither overload has any other result. *)
Theorem at_total_on_enumerators (g : generation_list_t.t) :
  (at_ (topic_t.underlying topic_t.sighupint) = Returns ref_sighupint
   ∧ at_ (topic_t.underlying topic_t.sigchld) = Returns ref_sigchld
   ∧ at_ (topic_t.underlying topic_t.internal_exit) = Returns ref_internal_exit)
  ∧ (at_const g (topic_t.underlying topic_t.sighupint) = Returns (sighupint g)
     ∧ at_const g (topic_t.underlying topic_t.sigchld) = Returns (sigchld g)
     ∧ at_const g (topic_t.underlying topic_t.internal_exit) = Returns (internal_exit g))
  ∧ (∀ topic : N,
       (at_ topic = Dies "Unreachable" ↔ ∀ k, topic ≠ topic_t.underlying k)
       ∧ (at_const g topic = Dies "Unreachable" ↔ ∀ k, topic ≠ topic_t.underlying k)
       ∧ at_ topic ≠ Undefined
       ∧ at_const g topic ≠ Undefined).
Proof.
  split; [repeat split |]. split; [repeat split |].
  intros topic. rewrite not_enumerator_iff.
  unfold at_, at_const; cbn.
  destruct (N.eqb_spec topic 1) as [-> | H1].
  { repeat split; try discriminate; intros (? & ? & ?); contradiction. }
  destruct (N.eqb_spec topic 0) as [-> | H0].
  { repeat split; try discriminate; intros (? & ? & ?); contradiction. }
  destruct (N.eqb_spec topic 2) as [-> | H2].
  { repeat split; try discriminate; intros (? & ? & ?); contradiction. }
  repeat split; try discriminate; assumption.
Qed.

(** C9.  The two overloads of [at] list their cases in different orders and
    still agree: on every enumerator the non-const overload returns a
    reference, the const overload returns a value, and the value is the
    content of the referenced field. *)
Theorem at_overloads_agree (g : generation_list_t.t) (k : topic_t.t) :
  ∃ r : field_ref,
    at_ (topic_t.underlying k) = Returns r
    ∧ at_const g (topic_t.underlying k) = Returns (load g r).
Proof.
  pose proof (at_overloads_agree_raw g (topic_t.underlying k)) as Hraw.
  destruct k; cbn in *; eexists; split; first [reflexivity | symmetry; exact Hraw].
Qed.

(** C4.  [is_valid] answers whether the generation of the topic differs from
    [invalid_generation], and [invalid_generation] is [2^64 - 1], the largest
    value of an unsigned 64-bit integer. *)
Theorem is_valid_iff_not_sentinel (g : generation_list_t.t) (k : topic_t.t) :
  (∃ (v : generation_t) (b : bool),
      at_const g (topic_t.underlying k) = Returns v
      ∧ is_valid g (topic_t.underlying k) = Returns b
      ∧ (b = true ↔ v ≠ invalid_generation))
  ∧ invalid_generation = 2 ^ 64 - 1
  ∧ invalid_generation < 2 ^ 64
  ∧ (∀ v : N, v < 2 ^ 64 → v ≤ invalid_generation).
Proof.
  split.
  - destruct (at_enumerator g k) as (r & _ & Hc).
    exists (load g r), (negb (load g r =? invalid_generation)).
    split; [exact Hc |]. split.
    + unfold is_valid. rewrite Hc. reflexivity.
    + rewrite negb_true_iff, N.eqb_neq. reflexivity.
  - assert (invalid_generation = 2 ^ 64 - 1) as Hmax by reflexivity.
    split; [exact Hmax |]. rewrite Hmax. split; [reflexivity |].
    intros v Hv. change (2 ^ 64) with 18446744073709551616 in *. lia.
Qed.

(** The loop of [any_valid] computes the disjunction over the three fields. *)
Lemma any_valid_unfold (g : generation_list_t.t) :
  any_valid g
  = negb (sighupint g =? invalid_generation)
    || negb (sigchld g =? invalid_generation)
    || negb (internal_exit g =? invalid_generation).
Proof.
  unfold any_valid, as_array; cbn.
  destruct (sighupint g =? invalid_generation),
           (sigchld g =? invalid_generation),
           (internal_exit g =? invalid_generation); reflexivity.
Qed.

(** C5.  [any_valid] is true exactly when some topic has a generation other
    than [invalid_generation]; it is false exactly on [invalids()], all of
    whose entries are [invalid_generation]. *)
Theorem any_valid_iff_exists (g : generation_list_t.t) :
  (any_valid g = true
   ↔ ∃ (k : topic_t.t) (v : generation_t),
       at_const g (topic_t.underlying k) = Returns v ∧ v ≠ invalid_generation)
  ∧ (any_valid g = false ↔ g = invalids)
  ∧ (∀ k : topic_t.t,
       at_const invalids (topic_t.underlying k) = Returns invalid_generation).
Proof.
  rewrite any_valid_unfold. split; [| split].
  - rewrite !orb_true_iff, !negb_true_iff, !N.eqb_neq. split.
    + intros [[H | H] | H].
      * exists topic_t.sighupint, (sighupint g). split; [reflexivity | exact H].
      * exists topic_t.sigchld, (sigchld g). split; [reflexivity | exact H].
      * exists topic_t.internal_exit, (internal_exit g). split; [reflexivity | exact H].
    + intros (k & v & Hat & Hv). destruct k; cbn in Hat; injection Hat as <-; tauto.
  - rewrite !orb_false_iff, !negb_false_iff, !N.eqb_eq. split.
    + intros [[H1 H2] H3]. destruct g as [a b c]; cbn in *. subst. reflexivity.
    + intros ->. repeat split.
  - intros k. destruct k; reflexivity.
Qed.

(** C6.  The array of [as_array] is in the order of [all_topics]: at every
    index below 3 it holds the generation of the topic that [all_topics] has
    at that index, and that order is sighupint, sigchld, internal_exit. *)
Theorem as_array_matches_all_topics (g : generation_list_t.t) (i : nat) :
  (i < 3)%nat →
  all_topics = [topic_t.sighupint; topic_t.sigchld; topic_t.internal_exit]
  ∧ ∃ (k : topic_t.t) (v : generation_t),
      all_topics !! i = Some k
      ∧ as_array g !! i = Some v
      ∧ at_const g (topic_t.underlying k) = Returns v.
Proof.
  intros Hi. split; [reflexivity |].
  destruct i as [| [| [| i]]]; [| | | lia].
  - exists topic_t.sighupint, (sighupint g). repeat split.
  - exists topic_t.sigchld, (sigchld g). repeat split.
  - exists topic_t.internal_exit, (internal_exit g). repeat split.
Qed.

Lemma as_array_matches_all_topics_witness :
  all_topics = [topic_t.sighupint; topic_t.sigchld; topic_t.internal_exit]
  ∧ ∃ (k : topic_t.t) (v : generation_t),
      all_topics !! 1%nat = Some k
      ∧ as_array (generation_list_t.mk 5 6 7) !! 1%nat = Some v
      ∧ at_const (generation_list_t.mk 5 6 7) (topic_t.underlying k) = Returns v.
Proof. apply (as_array_matches_all_topics (generation_list_t.mk 5 6 7) 1). lia. Defined.

(** C10.  A default-constructed list holds 0 for every topic, which is not
    [invalid_generation]: every topic is valid and [any_valid] is true. *)
Theorem default_tracks_every_topic :
  (∀ k : topic_t.t,
      at_const generation_list_t.default (topic_t.underlying k) = Returns 0
      ∧ is_valid generation_list_t.default (topic_t.underlying k) = Returns true)
  ∧ any_valid generation_list_t.default = true
  ∧ 0 ≠ invalid_generation
  ∧ generation_list_t.default ≠ invalids.
Proof.
  split; [| split; [| split]].
  - intros k. destruct k; split; reflexivity.
  - reflexivity.
  - discriminate.
  - discriminate.
Qed.

(** ** The minimum-merge *)

Section set_min_from.

(** A call [g.set_min_from(k, o)]: [this] designates [g] and [other]
    designates [o] in the heap [h]; nothing says the two are different. *)
Context (h : gmap loc generation_list_t.t) (this other : loc).
Context (g o : generation_list_t.t).
Hypothesis Hthis : h !! this = Some g.
Hypothesis Hother : h !! other = Some o.

(** The call returns, and the heap it leaves is the one in which [this]
    has received the smaller value, when there was a smaller one. *)
Lemma set_min_from_run (k : topic_t.t) :
  ∃ r : field_ref,
    at_ (topic_t.underlying k) = Returns r
    ∧ at_const g (topic_t.underlying k) = Returns (load g r)
    ∧ at_const o (topic_t.underlying k) = Returns (load o r)
    ∧ set_min_from this (topic_t.underlying k) other h
      = Returns (if load o r <? load g r
                 then <[this := store g r (load o r)]> h
                 else h).
Proof using Hthis Hother.
  destruct (at_enumerator g k) as (r & Hr & Hg).
  destruct (at_enumerator o k) as (r' & Hr' & Ho).
  assert (r' = r) as -> by congruence.
  exists r. repeat split; try assumption.
  unfold set_min_from, deref. rewrite Hthis, Hother. cbn.
  rewrite Hr, Ho. cbn.
  destruct (load o r <? load g r); reflexivity.
Qed.

(** C2.  After [g.set_min_from(k, o)] the generation of [k] in [g] is the
    minimum of what it was before the call and the generation of [k] in
    [o]. *)
Theorem set_min_from_is_min (k : topic_t.t) :
  ∃ (v w : generation_t) (h' : gmap loc generation_list_t.t)
    (g' : generation_list_t.t),
    at_const g (topic_t.underlying k) = Returns v
    ∧ at_const o (topic_t.underlying k) = Returns w
    ∧ set_min_from this (topic_t.underlying k) other h = Returns h'
    ∧ h' !! this = Some g'
    ∧ at_const g' (topic_t.underlying k) = Returns (N.min v w).
Proof using Hthis Hother.
  destruct (set_min_from_run k) as (r & Hr & Hg & Ho & Hrun).
  exists (load g r), (load o r).
  destruct (N.ltb_spec (load o r) (load g r)) as [Hlt | Hge].
  - exists (<[this := store g r (load o r)]> h), (store g r (load o r)).
    repeat split; try assumption.
    + apply lookup_insert_eq.
    + destruct (at_enumerator (store g r (load o r)) k) as (r' & Hr' & Hg').
      assert (r' = r) as -> by congruence.
      rewrite Hg', load_store_same. f_equal. lia.
  - exists h, g. repeat split; try assumption.
    rewrite Hg. f_equal. lia.
Qed.

(** C7.  [g.set_min_from(k, o)] leaves the generation of every topic other
    than [k] in [g] as it was, leaves [o] as it was, also when [o] is [g]
    itself, and touches no other object. *)
Theorem set_min_from_frame (k : topic_t.t) :
  ∃ (h' : gmap loc generation_list_t.t) (g' : generation_list_t.t),
    set_min_from this (topic_t.underlying k) other h = Returns h'
    ∧ h' !! this = Some g'
    ∧ (∀ j : topic_t.t,
         j ≠ k →
         at_const g' (topic_t.underlying j) = at_const g (topic_t.underlying j))
    ∧ h' !! other = Some o
    ∧ (∀ l : loc, l ≠ this → h' !! l = h !! l).
Proof using Hthis Hother.
  destruct (set_min_from_run k) as (r & Hr & Hg & Ho & Hrun).
  destruct (N.ltb_spec (load o r) (load g r)) as [Hlt | Hge].
  - exists (<[this := store g r (load o r)]> h), (store g r (load o r)).
    split; [exact Hrun |]. split; [apply lookup_insert_eq |].
    split; [| split].
    + intros j Hjk.
      destruct (at_enumerator g j) as (rj & Hrj & Hgj).
      destruct (at_enumerator (store g r (load o r)) j) as (rj' & Hrj' & Hgj').
      assert (rj' = rj) as -> by congruence.
      rewrite Hgj, Hgj'. f_equal. apply load_store_other.
      intros ->. apply Hjk.
      destruct j, k; cbn in Hr, Hrj; congruence.
    + destruct (decide (this = other)) as [<- | Hne].
      * assert (o = g) as -> by congruence. lia.
      * rewrite lookup_insert_ne by exact Hne. exact Hother.
    + intros l Hl. apply lookup_insert_ne. congruence.
  - exists h, g. repeat split; assumption.
Qed.

End set_min_from.

Lemma set_min_from_is_min_witness :
  ∃ (v w : generation_t) (h' : gmap loc generation_list_t.t)
    (g' : generation_list_t.t),
    at_const (generation_list_t.mk 5 6 7) (topic_t.underlying topic_t.sigchld) = Returns v
    ∧ at_const (generation_list_t.mk 1 2 3) (topic_t.underlying topic_t.sigchld) = Returns w
    ∧ set_min_from 1%positive (topic_t.underlying topic_t.sigchld) 2%positive
        (<[1%positive := generation_list_t.mk 5 6 7]>
           (<[2%positive := generation_list_t.mk 1 2 3]> ∅)) = Returns h'
    ∧ h' !! 1%positive = Some g'
    ∧ at_const g' (topic_t.underlying topic_t.sigchld) = Returns (N.min v w).
Proof.
  apply (set_min_from_is_min
           (<[1%positive := generation_list_t.mk 5 6 7]>
              (<[2%positive := generation_list_t.mk 1 2 3]> ∅))
           1%positive 2%positive
           (generation_list_t.mk 5 6 7) (generation_list_t.mk 1 2 3));
    reflexivity.
Defined.

(** The same object passed as receiver and as argument. *)
Lemma set_min_from_frame_witness :
  ∃ (h' : gmap loc generation_list_t.t) (g' : generation_list_t.t),
    set_min_from 1%positive (topic_t.underlying topic_t.sighupint) 1%positive
      (<[1%positive := generation_list_t.mk 5 6 7]> ∅) = Returns h'
    ∧ h' !! 1%positive = Some g'
    ∧ (∀ j : topic_t.t,
         j ≠ topic_t.sighupint →
         at_const g' (topic_t.underlying j)
         = at_const (generation_list_t.mk 5 6 7) (topic_t.underlying j))
    ∧ h' !! 1%positive = Some (generation_list_t.mk 5 6 7)
    ∧ (∀ l : loc, l ≠ 1%positive →
         h' !! l = (<[1%positive := generation_list_t.mk 5 6 7]> ∅ : gmap loc _) !! l).
Proof.
  apply (set_min_from_frame
           (<[1%positive := generation_list_t.mk 5 6 7]> ∅)
           1%positive 1%positive
           (generation_list_t.mk 5 6 7) (generation_list_t.mk 5 6 7));
    reflexivity.
Defined.

(** ** The pending-update bitmask *)

Import topic_monitor_t.

(** C8.  [topic_to_bit] gives each topic the mask [1 << discriminant], which
    has exactly the bit of the discriminant set; the masks of two different
    topics are different and share no bit; every mask fits the 8-bit
    [topic_bitmask_t], the number of topics being 3, which is at most 8. *)
Theorem topic_to_bit_masks (k : topic_t.t) :
  topic_to_bit (topic_t.underlying k) = N.shiftl 1 (topic_t.underlying k)
  ∧ (∀ i : N,
       N.testbit (topic_to_bit (topic_t.underlying k)) i = (i =? topic_t.underlying k))
  ∧ (∀ j : topic_t.t,
       j ≠ k →
       topic_to_bit (topic_t.underlying j) ≠ topic_to_bit (topic_t.underlying k)
       ∧ N.land (topic_to_bit (topic_t.underlying j))
                (topic_to_bit (topic_t.underlying k)) = 0)
  ∧ topic_to_bit (topic_t.underlying k) < 2 ^ 8
  ∧ topic_t.underlying k < 8
  ∧ length all_topics = 3%nat
  ∧ N.of_nat (length all_topics) ≤ 8.
Proof.
  assert (topic_to_bit (topic_t.underlying k) = N.shiftl 1 (topic_t.underlying k))
    as Hbit by (destruct k; reflexivity).
  split; [exact Hbit |]. split; [| split; [| split; [| split; [| split]]]].
  - intros i. rewrite Hbit, N.shiftl_1_l, N.pow2_bits_eqb, N.eqb_sym. reflexivity.
  - intros j Hjk. destruct j, k; first [contradiction | split; [discriminate | reflexivity]].
  - destruct k; reflexivity.
  - destruct k; reflexivity.
  - reflexivity.
  - cbn. lia.
Qed.

(** ** The authoritative counters *)

(** A stored increment is the increment itself as long as it stays in
    range. *)
Lemma wrap64_succ_small (x : N) : x + 1 < 2 ^ 64 → wrap64 (x + 1) = x + 1.
Proof. intros H. unfold wrap64. apply N.mod_small. exact H. Qed.

(** Applying the pending updates always returns; it clears the bitmask, keeps
    the reader flag, stores the list it returns as the authoritative one, and
    every counter is either kept or replaced by its stored increment. *)
Lemma updated_gens_in_data_run (m : topic_monitor_t.t) :
  ∃ gens : generation_list_t.t,
    updated_gens_in_data m
    = Returns (gens, topic_monitor_t.mk (mk_data gens (has_reader (data_ m))) 0)
    ∧ ∀ r : field_ref,
        load gens r = load (current (data_ m)) r
        ∨ load gens r = wrap64 (load (current (data_ m)) r + 1).
Proof.
  unfold updated_gens_in_data, all_topics, apply_pending. cbn.
  destruct (N.land (pending_updates_ m) (topic_to_bit 0) =? 0),
           (N.land (pending_updates_ m) (topic_to_bit 1) =? 0),
           (N.land (pending_updates_ m) (topic_to_bit 2) =? 0);
    cbn; eexists; (split; [reflexivity |]);
    intros r; destruct r; cbn; auto.
Qed.

(** Without wrap-around a drain moves no counter down and none up by more
    than one. *)
Lemma updated_gens_in_data_bounds (m : topic_monitor_t.t) (r : field_ref) :
  load (current (data_ m)) r + 1 < 2 ^ 64 →
  ∃ (gens : generation_list_t.t) (m' : topic_monitor_t.t),
    updated_gens_in_data m = Returns (gens, m')
    ∧ current (data_ m') = gens
    ∧ load (current (data_ m)) r ≤ load gens r
    ∧ load gens r ≤ load (current (data_ m)) r + 1.
Proof.
  intros Hsmall.
  destruct (updated_gens_in_data_run m) as (gens & Hrun & Hfields).
  eexists _, _. split; [exact Hrun |]. split; [reflexivity |].
  destruct (Hfields r) as [-> | ->].
  - lia.
  - rewrite wrap64_succ_small by exact Hsmall. lia.
Qed.

(** Over a sequence of actions that cannot reach the wrap-around, the run
    returns and the counter moves up by at most the number of actions. *)
Lemma run_bounds (acts : list action) (r : field_ref) :
  ∀ m : topic_monitor_t.t,
    load (current (data_ m)) r + N.of_nat (length acts) < 2 ^ 64 →
    ∃ m' : topic_monitor_t.t,
      run acts m = Returns m'
      ∧ load (current (data_ m)) r ≤ load (current (data_ m')) r
      ∧ load (current (data_ m')) r
        ≤ load (current (data_ m)) r + N.of_nat (length acts).
Proof.
  induction acts as [| a rest IH]; intros m Hsmall.
  - exists m. cbn. split; [reflexivity | lia].
  - cbn [length] in Hsmall. rewrite Nat2N.inj_succ in Hsmall.
    cbn [length]. rewrite Nat2N.inj_succ.
    destruct a as [topic | | b].
    + destruct (IH (post m (topic_t.underlying topic))) as (m' & Hrun & Hlo & Hhi).
      { cbn. lia. }
      exists m'. cbn in *. split; [exact Hrun | lia].
    + destruct (updated_gens_in_data_bounds m r) as (gens & m1 & Hdrain & Hcur & Hlo1 & Hhi1).
      { lia. }
      destruct (IH m1) as (m' & Hrun & Hlo & Hhi).
      { rewrite Hcur. lia. }
      exists m'. split.
      * change (run (Drain :: rest) m)
          with (outcome_bind (run rest)
                  (outcome_bind (λ '(_, m0), Returns m0) (updated_gens_in_data m))).
        rewrite Hdrain. exact Hrun.
      * rewrite Hcur in *. lia.
    + destruct (IH (topic_monitor_t.mk (mk_data (current (data_ m)) b) (pending_updates_ m)))
        as (m' & Hrun & Hlo & Hhi).
      { cbn. lia. }
      exists m'. cbn in *. split; [exact Hrun | lia].
Qed.

(** Outside that range the stored increment starts again from zero.  The
    source rules the case out ("It is 64 bit so it will never wrap"), and so
    does the spec. *)
Example wrap64_at_the_top : wrap64 (invalid_generation + 1) = 0.
Proof. reflexivity. Qed.

(** A monitor that starts fresh has no counter above the number of actions
    run on it, so the range is left only after [2^64] actions. *)
Lemma fresh_counters_bounded (acts : list action) (r : field_ref) :
  N.of_nat (length acts) < 2 ^ 64 →
  ∃ m' : topic_monitor_t.t,
    run acts fresh = Returns m'
    ∧ load (current (data_ m')) r ≤ N.of_nat (length acts).
Proof.
  intros Hlen.
  destruct (run_bounds acts r fresh) as (m' & Hrun & _ & Hhi).
  - destruct r; cbn; exact Hlen.
  - exists m'. split; [exact Hrun |]. destruct r; cbn in Hhi; exact Hhi.
Qed.

(** [current_generations] always returns. *)
Lemma current_generations_total (m : topic_monitor_t.t) :
  ∃ (gens : generation_list_t.t) (m' : topic_monitor_t.t),
    current_generations m = Returns (gens, m') ∧ current (data_ m') = gens.
Proof.
  destruct (updated_gens_in_data_run m) as (gens & Hrun & _).
  eexists _, _. split; [exact Hrun | reflexivity].
Qed.

(** C1.  Take a call of [current_generations] on a monitor, then any sequence
    of posts, drains and reader-flag changes on that monitor, then a second
    call.  With counters that do not wrap around [2^64] within that stretch
    (the spec puts wrap-around out of scope), the run and the second call
    return, and for every topic the generation of the second call is at least
    the generation of the first. *)
Theorem current_generations_monotone
    (m m1 : topic_monitor_t.t) (gens1 : generation_list_t.t)
    (acts : list action) (k : topic_t.t) (v1 : generation_t) :
  current_generations m = Returns (gens1, m1) →
  at_const gens1 (topic_t.underlying k) = Returns v1 →
  v1 + N.of_nat (length acts) + 1 < 2 ^ 64 →
  ∃ (m2 m3 : topic_monitor_t.t) (gens2 : generation_list_t.t) (v2 : generation_t),
    run acts m1 = Returns m2
    ∧ current_generations m2 = Returns (gens2, m3)
    ∧ at_const gens2 (topic_t.underlying k) = Returns v2
    ∧ v1 ≤ v2.
Proof.
  intros Hfirst Hv1 Hsmall.
  destruct (at_enumerator gens1 k) as (r & Hr & Hg1).
  assert (v1 = load gens1 r) as -> by congruence.
  destruct (current_generations_total m) as (gens & m' & Hfirst' & Hcur1).
  assert (gens = gens1 ∧ m' = m1) as [-> ->] by (split; congruence).
  destruct (run_bounds acts r m1) as (m2 & Hrun & Hlo & Hhi).
  { rewrite Hcur1. lia. }
  rewrite Hcur1 in *.
  destruct (updated_gens_in_data_bounds m2 r) as (gens2 & m3 & Hsecond & _ & Hlo2 & _).
  { lia. }
  destruct (at_enumerator gens2 k) as (r' & Hr' & Hg2).
  assert (r' = r) as -> by congruence.
  exists m2, m3, gens2, (load gens2 r).
  split; [exact Hrun |]. split; [exact Hsecond |]. split; [exact Hg2 | lia].
Qed.

Lemma current_generations_monotone_witness :
  ∃ (m2 m3 : topic_monitor_t.t) (gens2 : generation_list_t.t) (v2 : generation_t),
    run [Post topic_t.sigchld; SetReader true; Drain; Post topic_t.sigchld]
      (topic_monitor_t.mk (mk_data (generation_list_t.mk 0 1 0) false) 0)
    = Returns m2
    ∧ current_generations m2 = Returns (gens2, m3)
    ∧ at_const gens2 (topic_t.underlying topic_t.sigchld) = Returns v2
    ∧ 1 ≤ v2.
Proof.
  apply (current_generations_monotone
           (post fresh (topic_t.underlying topic_t.sigchld))
           (topic_monitor_t.mk (mk_data (generation_list_t.mk 0 1 0) false) 0)
           (generation_list_t.mk 0 1 0)
           [Post topic_t.sigchld; SetReader true; Drain; Post topic_t.sigchld]
           topic_t.sigchld 1).
  - reflexivity.
  - reflexivity.
  - reflexivity.
Defined.

(** * Further properties of the header *)

(** ** Comparing generation lists *)

(** [operator==] compares the three members; that is the same as comparing
    the arrays of [as_array], and the same as comparing what the const [at]
    returns on every topic. *)
Theorem eqb_characterisations (lhs rhs : generation_list_t.t) :
  (generation_list_t.eqb lhs rhs = true ↔ lhs = rhs)
  ∧ (generation_list_t.eqb lhs rhs = true ↔ as_array lhs = as_array rhs)
  ∧ (generation_list_t.eqb lhs rhs = true
     ↔ ∀ k : topic_t.t,
         at_const lhs (topic_t.underlying k) = at_const rhs (topic_t.underlying k)).
Proof.
  rewrite eqb_eq. split; [reflexivity |]. split.
  - split; [intros ->; reflexivity |].
    destruct lhs, rhs; unfold as_array; cbn. intros [= -> -> ->]. reflexivity.
  - split; [intros ->; reflexivity |].
    intros H.
    pose proof (H topic_t.sighupint) as H0.
    pose proof (H topic_t.sigchld) as H1.
    pose proof (H topic_t.internal_exit) as H2.
    destruct lhs, rhs; cbn in *. congruence.
Qed.

(** [operator!=] answers true exactly when the two lists disagree on the
    generation of some topic; a list never differs from itself. *)
Theorem neqb_iff_some_topic_differs (lhs rhs : generation_list_t.t) :
  (neqb lhs rhs = true
   ↔ ∃ (k : topic_t.t) (v w : generation_t),
       at_const lhs (topic_t.underlying k) = Returns v
       ∧ at_const rhs (topic_t.underlying k) = Returns w
       ∧ v ≠ w)
  ∧ neqb lhs lhs = false
  ∧ neqb lhs rhs = neqb rhs lhs.
Proof.
  unfold neqb, generation_list_t.eqb. split; [| split].
  - rewrite negb_true_iff, !andb_false_iff, !N.eqb_neq. split.
    + intros [[H | H] | H].
      * exists topic_t.sighupint, (sighupint lhs), (sighupint rhs). repeat split. exact H.
      * exists topic_t.sigchld, (sigchld lhs), (sigchld rhs). repeat split. exact H.
      * exists topic_t.internal_exit, (internal_exit lhs), (internal_exit rhs).
        repeat split. exact H.
    + intros (k & v & w & Hl & Hr & Hne).
      destruct k; cbn in Hl, Hr; injection Hl as <-; injection Hr as <-; tauto.
  - rewrite !N.eqb_refl. reflexivity.
  - rewrite (N.eqb_sym (sighupint lhs)), (N.eqb_sym (sigchld lhs)),
      (N.eqb_sym (internal_exit lhs)). reflexivity.
Qed.

(** ** Writing through the reference of the non-const [at] *)

(** After [g.at(k) = v], reading [k] gives [v], every other topic reads as
    before, the array of [as_array] has changed at the index that is the
    discriminant of [k] and nowhere else, and writing the old value back
    restores the list. *)
Theorem assign_through_at (g : generation_list_t.t) (k : topic_t.t) (v : generation_t) :
  ∃ r : field_ref,
    at_ (topic_t.underlying k) = Returns r
    ∧ at_const (store g r v) (topic_t.underlying k) = Returns v
    ∧ (∀ j : topic_t.t,
         j ≠ k →
         at_const (store g r v) (topic_t.underlying j)
         = at_const g (topic_t.underlying j))
    ∧ as_array (store g r v)
      = <[N.to_nat (topic_t.underlying k) := v]> (as_array g)
    ∧ store (store g r v) r (load g r) = g.
Proof.
  destruct g as [a b c].
  destruct k; eexists; (split; [reflexivity |]); repeat split;
    intros j Hj; destruct j; first [reflexivity | contradiction].
Qed.

(** ** Iterating over the topics *)

(** [all_topics] visits every topic exactly once, and the topic at an index
    is the one whose discriminant is that index: it is in step with the
    indices of [as_array]. *)
Theorem all_topics_complete (k : topic_t.t) :
  k ∈ all_topics
  ∧ NoDup all_topics
  ∧ all_topics !! N.to_nat (topic_t.underlying k) = Some k
  ∧ (∀ g : generation_list_t.t,
       at_const g (topic_t.underlying k)
       = match as_array g !! N.to_nat (topic_t.underlying k) with
         | Some v => Returns v
         | None => Dies "Unreachable"
         end)
  ∧ length (A:=topic_t.t) all_topics = length (as_array generation_list_t.default).
Proof.
  split; [| split; [| split; [| split]]].
  - destruct k; unfold all_topics; set_solver.
  - compute_done.
  - destruct k; reflexivity.
  - intros g. destruct k; reflexivity.
  - reflexivity.
Qed.

(** ** Composing minimum-merges *)

Lemma store_load_id (g : generation_list_t.t) (r : field_ref) :
  store g r (load g r) = g.
Proof. destruct g, r; reflexivity. Qed.

Lemma bind_Returns {A B : Type} (f : A → outcome B) (a : A) :
  (x ← Returns a; f x) = f a.
Proof. reflexivity. Qed.

(** A call on a heap in which the receiver has just been written: the result
    is again the original heap with a new receiver.  When [other] is the
    receiver itself, it is the written value that is read. *)
Lemma set_min_from_after_insert (h : gmap loc generation_list_t.t)
    (this other : loc) (g1 o : generation_list_t.t) (k : topic_t.t) :
  h !! other = Some o →
  ∃ r : field_ref,
    at_ (topic_t.underlying k) = Returns r
    ∧ set_min_from this (topic_t.underlying k) other (<[this := g1]> h)
      = Returns
          (<[this := store g1 r
                       (N.min (load g1 r)
                              (load (if decide (this = other) then g1 else o) r))]> h).
Proof.
  intros Hother.
  assert ((<[this := g1]> h) !! other
          = Some (if decide (this = other) then g1 else o)) as Hother'.
  { destruct (decide (this = other)) as [<- | Hne].
    - apply lookup_insert_eq.
    - rewrite lookup_insert_ne by exact Hne. exact Hother. }
  destruct (set_min_from_run (<[this := g1]> h) this other g1 _
              (lookup_insert_eq h this g1) Hother' k)
    as (r & Hr & _ & _ & Hrun).
  exists r. split; [exact Hr |]. rewrite Hrun.
  destruct (N.ltb_spec (load (if decide (this = other) then g1 else o) r) (load g1 r))
    as [Hlt | Hge].
  - rewrite N.min_r by lia. rewrite insert_insert_eq. reflexivity.
  - rewrite N.min_l by lia. rewrite store_load_id. reflexivity.
Qed.

(** The same for the first call on a heap. *)
Lemma set_min_from_normal (h : gmap loc generation_list_t.t)
    (this other : loc) (g o : generation_list_t.t) (k : topic_t.t) :
  h !! this = Some g →
  h !! other = Some o →
  ∃ r : field_ref,
    at_ (topic_t.underlying k) = Returns r
    ∧ set_min_from this (topic_t.underlying k) other h
      = Returns (<[this := store g r (N.min (load g r) (load o r))]> h).
Proof.
  intros Hthis Hother.
  destruct (set_min_from_after_insert h this other g o k Hother) as (r & Hr & Hrun).
  exists r. split; [exact Hr |].
  rewrite (insert_id h this g Hthis) in Hrun. rewrite Hrun.
  destruct (decide (this = other)) as [<- | Hne]; [| reflexivity].
  assert (o = g) as -> by congruence. reflexivity.
Qed.

Ltac fields_eq :=
  repeat match goal with
         | g : generation_list_t.t |- _ => destruct g
         | r : field_ref |- _ => destruct r
         end;
  cbn; f_equal; lia.

(** Merging twice from the same list is merging once: the second
    [g.set_min_from(k, o)] changes nothing. *)
Theorem set_min_from_idempotent (h : gmap loc generation_list_t.t)
    (this other : loc) (g o : generation_list_t.t) (k : topic_t.t) :
  h !! this = Some g →
  h !! other = Some o →
  ∃ h' : gmap loc generation_list_t.t,
    set_min_from this (topic_t.underlying k) other h = Returns h'
    ∧ set_min_from this (topic_t.underlying k) other h' = Returns h'.
Proof.
  intros Hthis Hother.
  destruct (set_min_from_normal h this other g o k Hthis Hother) as (r & Hr & Hrun).
  eexists. split; [exact Hrun |].
  destruct (set_min_from_after_insert h this other
              (store g r (N.min (load g r) (load o r))) o k Hother)
    as (r' & Hr' & Hrun').
  assert (r' = r) as -> by congruence.
  rewrite Hrun'. do 2 f_equal.
  destruct (decide (this = other)) as [<- | Hne].
  - assert (o = g) as -> by congruence. fields_eq.
  - fields_eq.
Qed.

Lemma set_min_from_idempotent_witness :
  ∃ h' : gmap loc generation_list_t.t,
    set_min_from 1%positive (topic_t.underlying topic_t.internal_exit) 2%positive
      (<[1%positive := generation_list_t.mk 5 6 7]>
         (<[2%positive := generation_list_t.mk 1 2 3]> ∅)) = Returns h'
    ∧ set_min_from 1%positive (topic_t.underlying topic_t.internal_exit) 2%positive h'
      = Returns h'.
Proof.
  apply (set_min_from_idempotent
           (<[1%positive := generation_list_t.mk 5 6 7]>
              (<[2%positive := generation_list_t.mk 1 2 3]> ∅))
           1%positive 2%positive
           (generation_list_t.mk 5 6 7) (generation_list_t.mk 1 2 3));
    reflexivity.
Defined.

(** Two merges into the same receiver can be done in either order, whatever
    the two topics and the two sources are (equal or different, and also
    when a source is the receiver). *)
Theorem set_min_from_commute (h : gmap loc generation_list_t.t)
    (this other1 other2 : loc) (g o1 o2 : generation_list_t.t) (j k : topic_t.t) :
  h !! this = Some g →
  h !! other1 = Some o1 →
  h !! other2 = Some o2 →
  ∃ h' : gmap loc generation_list_t.t,
    (h1 ← set_min_from this (topic_t.underlying j) other1 h;
     set_min_from this (topic_t.underlying k) other2 h1) = Returns h'
    ∧ (h2 ← set_min_from this (topic_t.underlying k) other2 h;
       set_min_from this (topic_t.underlying j) other1 h2) = Returns h'.
Proof.
  intros Hthis H1 H2.
  destruct (set_min_from_normal h this other1 g o1 j Hthis H1) as (rj & Hrj & Hj).
  destruct (set_min_from_normal h this other2 g o2 k Hthis H2) as (rk & Hrk & Hk).
  destruct (set_min_from_after_insert h this other2
              (store g rj (N.min (load g rj) (load o1 rj))) o2 k H2)
    as (rk' & Hrk' & Hjk).
  destruct (set_min_from_after_insert h this other1
              (store g rk (N.min (load g rk) (load o2 rk))) o1 j H1)
    as (rj' & Hrj' & Hkj).
  assert (rk' = rk) as -> by congruence.
  assert (rj' = rj) as -> by congruence.
  eexists. rewrite Hj, Hk, !bind_Returns, Hjk, Hkj.
  split; [reflexivity |]. do 2 f_equal.
  clear Hj Hk Hjk Hkj Hrj Hrk Hrj' Hrk'.
  destruct (decide (this = other1)) as [<- | Hne1];
    destruct (decide (this = other2)) as [E2 | Hne2];
    try (assert (o1 = g) as -> by congruence);
    try (subst other2; assert (o2 = g) as -> by congruence);
    clear Hthis H1 H2; fields_eq.
Qed.

Lemma set_min_from_commute_witness :
  ∃ h' : gmap loc generation_list_t.t,
    (h1 ← set_min_from 1%positive (topic_t.underlying topic_t.sigchld) 2%positive
            (<[1%positive := generation_list_t.mk 5 6 7]>
               (<[2%positive := generation_list_t.mk 9 2 3]>
                  (<[3%positive := generation_list_t.mk 1 4 8]> ∅)));
     set_min_from 1%positive (topic_t.underlying topic_t.sigchld) 3%positive h1)
    = Returns h'
    ∧ (h2 ← set_min_from 1%positive (topic_t.underlying topic_t.sigchld) 3%positive
              (<[1%positive := generation_list_t.mk 5 6 7]>
                 (<[2%positive := generation_list_t.mk 9 2 3]>
                    (<[3%positive := generation_list_t.mk 1 4 8]> ∅)));
       set_min_from 1%positive (topic_t.underlying topic_t.sigchld) 2%positive h2)
      = Returns h'.
Proof.
  apply (set_min_from_commute
           (<[1%positive := generation_list_t.mk 5 6 7]>
              (<[2%positive := generation_list_t.mk 9 2 3]>
                 (<[3%positive := generation_list_t.mk 1 4 8]> ∅)))
           1%positive 2%positive 3%positive
           (generation_list_t.mk 5 6 7) (generation_list_t.mk 9 2 3)
           (generation_list_t.mk 1 4 8));
    reflexivity.
Defined.

(** Merging every topic of [all_topics] in turn leaves the receiver with the
    pointwise minimum of the two lists. *)
Theorem set_min_from_all_topics (h : gmap loc generation_list_t.t)
    (this other : loc) (g o : generation_list_t.t) :
  h !! this = Some g →
  h !! other = Some o →
  fold_left
    (fun (acc : outcome (gmap loc generation_list_t.t)) (topic : topic_t.t) =>
       h0 ← acc; set_min_from this (topic_t.underlying topic) other h0)
    all_topics (Returns h)
  = Returns
      (<[this := generation_list_t.mk
                   (N.min (sighupint g) (sighupint o))
                   (N.min (sigchld g) (sigchld o))
                   (N.min (internal_exit g) (internal_exit o))]> h).
Proof.
  intros Hthis Hother. unfold all_topics. cbn [fold_left].
  destruct (set_min_from_normal h this other g o topic_t.sighupint Hthis Hother)
    as (r0 & Hr0 & H0).
  cbn in Hr0. injection Hr0 as <-.
  rewrite bind_Returns, H0, bind_Returns.
  destruct (set_min_from_after_insert h this other
              (store g ref_sighupint
                 (N.min (load g ref_sighupint) (load o ref_sighupint)))
              o topic_t.sigchld Hother) as (r1 & Hr1 & H1).
  cbn in Hr1. injection Hr1 as <-.
  rewrite H1, bind_Returns.
  match goal with
  | |- set_min_from _ _ _ (<[this := ?g2]> h) = _ =>
      destruct (set_min_from_after_insert h this other g2 o
                  topic_t.internal_exit Hother) as (r2 & Hr2 & H2)
  end.
  cbn in Hr2. injection Hr2 as <-.
  rewrite H2. do 2 f_equal.
  destruct (decide (this = other)) as [<- | Hne].
  - assert (o = g) as -> by congruence. clear Hthis Hother H0 H1 H2.
    destruct g; cbn; f_equal; lia.
  - clear Hthis Hother H0 H1 H2. destruct g, o; cbn; f_equal; lia.
Qed.

Lemma set_min_from_all_topics_witness :
  fold_left
    (fun (acc : outcome (gmap loc generation_list_t.t)) (topic : topic_t.t) =>
       h0 ← acc; set_min_from 1%positive (topic_t.underlying topic) 2%positive h0)
    all_topics
    (Returns (<[1%positive := generation_list_t.mk 5 1 7]>
                (<[2%positive := generation_list_t.mk 4 2 9]> ∅)))
  = Returns
      (<[1%positive := generation_list_t.mk (N.min 5 4) (N.min 1 2) (N.min 7 9)]>
         (<[1%positive := generation_list_t.mk 5 1 7]>
            (<[2%positive := generation_list_t.mk 4 2 9]> ∅))).
Proof.
  apply (set_min_from_all_topics
           (<[1%positive := generation_list_t.mk 5 1 7]>
              (<[2%positive := generation_list_t.mk 4 2 9]> ∅))
           1%positive 2%positive
           (generation_list_t.mk 5 1 7) (generation_list_t.mk 4 2 9));
    reflexivity.
Defined.

(** ** Out-of-range topics and the sentinel *)



(** Merging from a list whose entry for the topic is [invalid_generation]
    changes nothing: no 64-bit generation is greater than the sentinel.  In
    particular merging from [invalids()] is a no-op on every topic. *)
Theorem set_min_from_sentinel_is_neutral (h : gmap loc generation_list_t.t)
    (this other : loc) (g o : generation_list_t.t) (k : topic_t.t)
    (v : generation_t) :
  h !! this = Some g →
  h !! other = Some o →
  at_const g (topic_t.underlying k) = Returns v →
  v < 2 ^ 64 →
  at_const o (topic_t.underlying k) = Returns invalid_generation →
  set_min_from this (topic_t.underlying k) other h = Returns h.
Proof.
  intros Hthis Hother Hv Hrange Ho.
  destruct (set_min_from_run h this other g o Hthis Hother k)
    as (r & Hr & Hg & Ho' & Hrun).
  rewrite Hrun.
  assert (load g r = v) as Hgv by congruence.
  assert (load o r = invalid_generation) as Hov by congruence.
  rewrite Hgv, Hov.
  destruct (N.ltb_spec invalid_generation v) as [Hlt | _]; [| reflexivity].
  exfalso. change invalid_generation with 18446744073709551615 in Hlt.
  change (2 ^ 64) with 18446744073709551616 in Hrange. lia.
Qed.

Lemma set_min_from_sentinel_is_neutral_witness :
  set_min_from 1%positive (topic_t.underlying topic_t.sigchld) 2%positive
    (<[1%positive := generation_list_t.mk 5 6 7]> (<[2%positive := invalids]> ∅))
  = Returns (<[1%positive := generation_list_t.mk 5 6 7]> (<[2%positive := invalids]> ∅)).
Proof.
  apply (set_min_from_sentinel_is_neutral
           (<[1%positive := generation_list_t.mk 5 6 7]> (<[2%positive := invalids]> ∅))
           1%positive 2%positive (generation_list_t.mk 5 6 7) invalids
           topic_t.sigchld 6);
    reflexivity.
Defined.

(** After [g.set_min_from(k, o)] on 64-bit generations, [g] tracks [k]
    exactly when [g] or [o] tracked it before: a merge never turns a tracked
    topic into an untracked one, and it turns an untracked topic of the
    receiver into a tracked one when the source tracks it. *)
Theorem set_min_from_is_valid (h : gmap loc generation_list_t.t)
    (this other : loc) (g o : generation_list_t.t) (k : topic_t.t)
    (v w : generation_t) :
  h !! this = Some g →
  h !! other = Some o →
  at_const g (topic_t.underlying k) = Returns v →
  at_const o (topic_t.underlying k) = Returns w →
  v < 2 ^ 64 →
  w < 2 ^ 64 →
  ∃ (h' : gmap loc generation_list_t.t) (g' : generation_list_t.t) (bg bo : bool),
    set_min_from this (topic_t.underlying k) other h = Returns h'
    ∧ h' !! this = Some g'
    ∧ is_valid g (topic_t.underlying k) = Returns bg
    ∧ is_valid o (topic_t.underlying k) = Returns bo
    ∧ is_valid g' (topic_t.underlying k) = Returns (bg || bo).
Proof.
  intros Hthis Hother Hv Hw Hvr Hwr.
  destruct (set_min_from_normal h this other g o k Hthis Hother) as (r & Hr & Hrun).
  destruct (at_enumerator g k) as (r1 & Hr1 & Hg).
  destruct (at_enumerator o k) as (r2 & Hr2 & Ho).
  destruct (at_enumerator (store g r (N.min (load g r) (load o r))) k)
    as (r3 & Hr3 & Hg').
  assert (r1 = r) as -> by congruence.
  assert (r2 = r) as -> by congruence.
  assert (r3 = r) as -> by congruence.
  assert (load g r = v) as Hgv by congruence.
  assert (load o r = w) as Hov by congruence.
  rewrite load_store_same, Hgv, Hov in Hg'. rewrite Hgv, Hov in Hrun.
  eexists _, _, (negb (v =? invalid_generation)), (negb (w =? invalid_generation)).
  split; [exact Hrun |]. split; [apply lookup_insert_eq |].
  unfold is_valid. rewrite Hv, Hw, Hg'. cbn.
  repeat split. f_equal.
  change invalid_generation with 18446744073709551615.
  change (2 ^ 64) with 18446744073709551616 in Hvr, Hwr.
  destruct (N.eqb_spec v 18446744073709551615),
           (N.eqb_spec w 18446744073709551615),
           (N.eqb_spec (N.min v w) 18446744073709551615); cbn; first [reflexivity | lia].
Qed.

Lemma set_min_from_is_valid_witness :
  ∃ (h' : gmap loc generation_list_t.t) (g' : generation_list_t.t) (bg bo : bool),
    set_min_from 1%positive (topic_t.underlying topic_t.sighupint) 2%positive
      (<[1%positive := invalids]> (<[2%positive := generation_list_t.mk 4 2 9]> ∅))
    = Returns h'
    ∧ h' !! 1%positive = Some g'
    ∧ is_valid invalids (topic_t.underlying topic_t.sighupint) = Returns bg
    ∧ is_valid (generation_list_t.mk 4 2 9) (topic_t.underlying topic_t.sighupint)
      = Returns bo
    ∧ is_valid g' (topic_t.underlying topic_t.sighupint) = Returns (bg || bo).
Proof.
  apply (set_min_from_is_valid
           (<[1%positive := invalids]> (<[2%positive := generation_list_t.mk 4 2 9]> ∅))
           1%positive 2%positive invalids (generation_list_t.mk 4 2 9)
           topic_t.sighupint invalid_generation 4);
    reflexivity.
Defined.

(** ** Masks and sets of topics *)

(** The conversion of the mask to the 8-bit [topic_bitmask_t] keeps it for a
    discriminant below 8 and loses it from 8 on: a topic with such a
    discriminant would get the empty mask.  (The shift is done on [int]; the
    statement stays within the discriminants for which it is defined.) *)
Theorem topic_to_bit_needs_eight_bits (d : N) :
  d < 31 →
  (d < 8 → topic_to_bit d = 2 ^ d ∧ topic_to_bit d ≠ 0)
  ∧ (8 ≤ d → topic_to_bit d = 0).
Proof.
  intros Hd. unfold topic_to_bit, wrap8.
  assert (d mod 2 ^ 8 = d) as ->.
  { apply N.mod_small. change (2 ^ 8) with 256. lia. }
  rewrite N.shiftl_1_l. split.
  - intros Hlt.
    assert (2 ^ d < 2 ^ 8) as Hpow by (apply N.pow_lt_mono_r; lia).
    rewrite N.mod_small by exact Hpow. split; [reflexivity |].
    apply N.pow_nonzero. discriminate.
  - intros Hge.
    replace d with ((d - 8) + 8) by lia.
    rewrite N.pow_add_r. apply N.Div0.mod_mul.
Qed.

Lemma topic_to_bit_needs_eight_bits_witness :
  (8 < 8 → topic_to_bit 8 = 2 ^ 8 ∧ topic_to_bit 8 ≠ 0)
  ∧ (8 ≤ 8 → topic_to_bit 8 = 0).
Proof. apply (topic_to_bit_needs_eight_bits 8). reflexivity. Defined.

Lemma land_topic_bits (j k : topic_t.t) :
  N.land (topic_to_bit (topic_t.underlying j)) (topic_to_bit (topic_t.underlying k))
  = if decide (j = k) then topic_to_bit (topic_t.underlying k) else 0.
Proof. destruct j, k; reflexivity. Qed.

(** A bitmask built by or-ing the masks of some topics has the bit of a
    topic set exactly when that topic is among them, and it fits the 8-bit
    [topic_bitmask_t] (it is at most 7). *)
Theorem topic_bits_encode_sets (topics : list topic_t.t) (k : topic_t.t) :
  (N.land
     (foldr (fun j mask => N.lor (topic_to_bit (topic_t.underlying j)) mask) 0 topics)
     (topic_to_bit (topic_t.underlying k)) ≠ 0
   ↔ k ∈ topics)
  ∧ foldr (fun j mask => N.lor (topic_to_bit (topic_t.underlying j)) mask) 0 topics
    ≤ 7.
Proof.
  induction topics as [| j rest [IHmem IHle]].
  - cbn. split; [| lia]. split; [intros H; contradiction | intros H; inversion H].
  - cbn [foldr]. split.
    + rewrite N.land_lor_distr_l, land_topic_bits, elem_of_cons.
      destruct (decide (j = k)) as [-> | Hne].
      * split; [intros _; left; reflexivity |].
        intros _ H. apply N.lor_eq_0_iff in H as [H _].
        destruct k; discriminate H.
      * rewrite N.lor_0_l, IHmem. split; [intros H; right; exact H |].
        intros [E | H]; [congruence | exact H].
    + set (mask := foldr _ 0 rest) in *. clearbody mask.
      assert (mask = 0 ∨ mask = 1 ∨ mask = 2 ∨ mask = 3
              ∨ mask = 4 ∨ mask = 5 ∨ mask = 6 ∨ mask = 7) as Hcases by lia.
      destruct j; decompose [or] Hcases; subst mask; vm_compute; discriminate.
Qed.

(** ** [any_valid] and [is_valid] *)

(** [any_valid] is true exactly when [is_valid] is true for some topic of
    [all_topics]; writing a generation other than the sentinel through
    [at(k)] makes it true, whatever the list held. *)
Theorem any_valid_iff_some_is_valid (g : generation_list_t.t) :
  (any_valid g = true
   ↔ ∃ k : topic_t.t,
       k ∈ all_topics ∧ is_valid g (topic_t.underlying k) = Returns true)
  ∧ (∀ (k : topic_t.t) (v : generation_t),
       v ≠ invalid_generation →
       ∃ r : field_ref,
         at_ (topic_t.underlying k) = Returns r ∧ any_valid (store g r v) = true).
Proof.
  split.
  - rewrite any_valid_unfold, !orb_true_iff. split.
    + intros [[H | H] | H].
      * exists topic_t.sighupint. split; [compute_done |].
        unfold is_valid; cbn. rewrite H. reflexivity.
      * exists topic_t.sigchld. split; [compute_done |].
        unfold is_valid; cbn. rewrite H. reflexivity.
      * exists topic_t.internal_exit. split; [compute_done |].
        unfold is_valid; cbn. rewrite H. reflexivity.
    + intros (k & _ & H). destruct k; unfold is_valid in H; cbn in H;
        injection H as H; tauto.
  - intros k v Hv. apply N.eqb_neq in Hv.
    destruct k; eexists; (split; [reflexivity |]);
      rewrite any_valid_unfold; cbn; rewrite Hv; cbn;
      rewrite ?orb_true_r; reflexivity.
Qed.
